(** * Sequential file pipeline ([fileOps]) of the Node.js tutorial

    The script reads [files/starter.txt] as UTF-8 text, unlinks it, writes
    the text to [files/reply.txt], appends a fixed suffix, renames the
    file to [files/newreply.txt] and reads it back; every awaited call
    sits inside one [try]/[catch] whose handler logs the error.

    The development embeds
    - the text codec that [readFile(.., 'utf8')], [writeFile] and
      [appendFile] apply between file bytes and JavaScript strings,
    - the entries of the directory [__dirname/files] as a finite map,
    - the five [fs.promises] calls with the error objects they reject with,
    - [fileOps] itself in a state-and-exception monad with one suspension
      point per [await], and the top-level script around it. *)

From stdpp Require Import base option list strings gmap.
From Stdlib Require Import ZArith Lia.

Local Open Scope Z_scope.

(** ** JavaScript strings and file bytes *)

(** A JavaScript string is a sequence of UTF-16 code units; a file holds a
    sequence of bytes.  Both are kept as integers, the codec below treats
    anything outside the expected range as malformed input. *)
Definition js_string := list Z.
Definition bytes := list Z.

Module Utf8.

Definition REPLACEMENT : Z := 0xFFFD.

Definition is_high (u : Z) : bool := (0xD800 <=? u) && (u <=? 0xDBFF).
Definition is_low (u : Z) : bool := (0xDC00 <=? u) && (u <=? 0xDFFF).

(** The code units of one scalar value. *)
Definition units (c : Z) : js_string :=
  if c <? 0x10000 then [c]
  else [0xD800 + (c - 0x10000) / 0x400; 0xDC00 + (c - 0x10000) mod 0x400].

(** The bytes of one scalar value. *)
Definition put (c : Z) : bytes :=
  if c <? 0x80 then [c]
  else if c <? 0x800 then [0xC0 + c / 0x40; 0x80 + c mod 0x40]
  else if c <? 0x10000 then
    [0xE0 + c / 0x1000; 0x80 + (c / 0x40) mod 0x40; 0x80 + c mod 0x40]
  else
    [0xF0 + c / 0x40000; 0x80 + (c / 0x1000) mod 0x40;
     0x80 + (c / 0x40) mod 0x40; 0x80 + c mod 0x40].

(** String to bytes, as the runtime writes text: a surrogate pair is one
    scalar value, a surrogate on its own is written as U+FFFD. *)
Fixpoint encode (s : js_string) : bytes :=
  match s with
  | [] => []
  | u :: s' =>
      if is_high u then
        match s' with
        | l :: s'' =>
            if is_low l
            then put (0x10000 + (u - 0xD800) * 0x400 + (l - 0xDC00)) ++ encode s''
            else put REPLACEMENT ++ encode s'
        | [] => put REPLACEMENT
        end
      else if is_low u then put REPLACEMENT ++ encode s'
      else put u ++ encode s'
  end.

(** A multi-byte sequence in progress: the bits gathered so far, the
    number of continuation bytes expected after the next one, and the
    bounds the next byte has to respect. *)
Record pending := Pending { acc : Z; more : nat; lower : Z; upper : Z }.

Inductive lead_result :=
| Emit (c : Z)
| Start (p : pending).

(** A byte met outside a sequence. *)
Definition lead (b : Z) : lead_result :=
  if (0 <=? b) && (b <=? 0x7F) then Emit b
  else if (0xC2 <=? b) && (b <=? 0xDF) then
    Start (Pending (b - 0xC0) 0 0x80 0xBF)
  else if (0xE0 <=? b) && (b <=? 0xEF) then
    Start (Pending (b - 0xE0) 1
             (if b =? 0xE0 then 0xA0 else 0x80)
             (if b =? 0xED then 0x9F else 0xBF))
  else if (0xF0 <=? b) && (b <=? 0xF4) then
    Start (Pending (b - 0xF0) 2
             (if b =? 0xF0 then 0x90 else 0x80)
             (if b =? 0xF4 then 0x8F else 0xBF))
  else Emit REPLACEMENT.

(** Bytes to string, as the runtime reads text: malformed input never
    fails, each maximal malformed part becomes one U+FFFD, and the byte
    that broke a sequence is looked at again as a first byte. *)
Fixpoint decode_from (st : option pending) (bs : bytes) : js_string :=
  match bs with
  | [] => match st with None => [] | Some _ => [REPLACEMENT] end
  | b :: bs' =>
      let fresh :=
        match lead b with
        | Emit c => units c ++ decode_from None bs'
        | Start p => decode_from (Some p) bs'
        end in
      match st with
      | None => fresh
      | Some p =>
          if (lower p <=? b) && (b <=? upper p) then
            let c := acc p * 0x40 + (b - 0x80) in
            match more p with
            | O => units c ++ decode_from None bs'
            | S n => decode_from (Some (Pending c n 0x80 0xBF)) bs'
            end
          else REPLACEMENT :: fresh
      end
  end.

Definition decode (bs : bytes) : js_string := decode_from None bs.

(** Well-formed UTF-16: every code unit in range, surrogates only in
    high-low pairs. *)
Inductive well_formed : js_string → Prop :=
| wf_nil : well_formed []
| wf_bmp u s :
    0 <= u <= 0xFFFF → is_high u = false → is_low u = false →
    well_formed s → well_formed (u :: s)
| wf_pair h l s :
    is_high h = true → is_low l = true →
    well_formed s → well_formed (h :: l :: s).

End Utf8.

(** ** The directory [__dirname/files] *)

(** An entry is a regular file with its bytes, or a directory (of which
    only emptiness matters here).  The directory [files] itself is taken to
    exist and to be writable; the calls follow the Linux behaviour. *)
Inductive node :=
| File (content : bytes)
| Dir (empty : bool).

Abbreviation files := (gmap string node).

Inductive errno := ENOENT | EISDIR | ENOTDIR | ENOTEMPTY.

(** The error object a rejected [fs.promises] call carries. *)
Record fs_error := FsError {
  code : errno;
  syscall : string;
  path : option string;
  dest : option string
}.

Inductive js_value :=
| undefined
| JString (s : js_string)
| JError (e : fs_error).

Definition fs_result (A : Type) : Type := (fs_error + A) * files.

(** The only encoding the script asks for. *)
Inductive encoding := utf8.

Definition readFile (p : string) (enc : encoding) (σ : files) : fs_result js_string :=
  match σ !! p with
  | None => (inl (FsError ENOENT "open" (Some p) None), σ)
  | Some (Dir _) => (inl (FsError EISDIR "read" None None), σ)
  | Some (File b) => (inr (match enc with utf8 => Utf8.decode b end), σ)
  end.

Definition unlink (p : string) (σ : files) : fs_result unit :=
  match σ !! p with
  | None => (inl (FsError ENOENT "unlink" (Some p) None), σ)
  | Some (Dir _) => (inl (FsError EISDIR "unlink" (Some p) None), σ)
  | Some (File _) => (inr (), delete p σ)
  end.

Definition writeFile (p : string) (data : js_string) (σ : files) : fs_result unit :=
  match σ !! p with
  | Some (Dir _) => (inl (FsError EISDIR "open" (Some p) None), σ)
  | _ => (inr (), <[p := File (Utf8.encode data)]> σ)
  end.

Definition appendFile (p : string) (data : js_string) (σ : files) : fs_result unit :=
  match σ !! p with
  | Some (Dir _) => (inl (FsError EISDIR "open" (Some p) None), σ)
  | Some (File b) => (inr (), <[p := File (b ++ Utf8.encode data)]> σ)
  | None => (inr (), <[p := File (Utf8.encode data)]> σ)
  end.

Definition rename (p q : string) (σ : files) : fs_result unit :=
  let fail c := (inl (FsError c "rename" (Some p) (Some q)), σ) in
  match σ !! p with
  | None => fail ENOENT
  | Some n =>
      if decide (p = q) then (inr (), σ)
      else
        let move := (inr (), <[q := n]> (delete p σ)) in
        match n, σ !! q with
        | _, None => move
        | File _, Some (File _) => move
        | File _, Some (Dir _) => fail EISDIR
        | Dir _, Some (File _) => fail ENOTDIR
        | Dir _, Some (Dir true) => move
        | Dir _, Some (Dir false) => fail ENOTEMPTY
        end
  end.

(** ** The calls the pipeline awaits *)

Inductive fs_call :=
| ReadFile (p : string)
| Unlink (p : string)
| WriteFile (p : string) (data : js_string)
| AppendFile (p : string) (data : js_string)
| Rename (p q : string).

Definition unit_value (r : fs_result unit) : fs_result js_value :=
  (match r.1 with inl e => inl e | inr _ => inr undefined end, r.2).

Definition string_value (r : fs_result js_string) : fs_result js_value :=
  (match r.1 with inl e => inl e | inr s => inr (JString s) end, r.2).

Definition perform (c : fs_call) (σ : files) : fs_result js_value :=
  match c with
  | ReadFile p => string_value (readFile p utf8 σ)
  | Unlink p => unit_value (unlink p σ)
  | WriteFile p data => unit_value (writeFile p data σ)
  | AppendFile p data => unit_value (appendFile p data σ)
  | Rename p q => unit_value (rename p q σ)
  end.

(** ** The world around the script *)

(** One record per awaited call: the directory as the call found it
    ([before]) and as it left it ([after]), what the promise settled with,
    and the turn of the event loop in which it ran. *)
Record event := Event {
  call : fs_call;
  before : files;
  after : files;
  settled : fs_error + js_value;
  turn : nat
}.

Inductive console_line :=
| Log (v : js_value)
| Error (template : string) (v : js_value).

Record world := World {
  fs : files;
  console : list console_line;
  clock : nat;
  trace : list event
}.

(** While the script is suspended at an [await], other processes may
    change the directory: [env n] is what they do before the call of turn
    [n] runs.  [quiet] is the world in which nobody else touches it. *)
Definition interference := nat → files → files.
Definition quiet : interference := λ _ σ, σ.

Definition boot (σ : files) : world := World σ [] 0 [].

(** ** Asynchronous computations *)

Inductive completion (A : Type) :=
| Normal (a : A)
| Throw (e : js_value).
Arguments Normal {A} a.
Arguments Throw {A} e.

Definition async (A : Type) : Type := interference → world → completion A * world.

#[export] Instance async_ret : MRet async := λ A a _ w, (Normal a, w).

#[export] Instance async_bind : MBind async := λ A B k m env w,
  match m env w with
  | (Normal a, w') => k a env w'
  | (Throw e, w') => (Throw e, w')
  end.

Definition try_catch {A} (body : async A) (handler : js_value → async A) : async A :=
  λ env w,
    match body env w with
    | (Normal a, w') => (Normal a, w')
    | (Throw e, w') => handler e env w'
    end.

Definition console_log (v : js_value) : async unit :=
  λ _ w, (Normal (), World (fs w) (console w ++ [Log v]) (clock w) (trace w)).

(** [await] of a filesystem promise: the script is suspended, the rest of
    the system moves, the call runs, and the script resumes with the value
    or with the error thrown at the [await]. *)
Definition await (c : fs_call) : async js_value :=
  λ env w,
    let σ := env (clock w) (fs w) in
    let r := perform c σ in
    let w' := World r.2 (console w) (S (clock w))
                (trace w ++ [Event c σ r.2 r.1 (clock w)]) in
    match r.1 with
    | inl e => (Throw (JError e), w')
    | inr v => (Normal v, w')
    end.

Definition await_text (c : fs_call) : async js_string :=
  v ← await c;
  mret (match v with JString s => s | _ => [] end).

(** ** The script *)

Definition path_join (parts : list string) : string :=
  match parts with
  | [] => "."
  | d :: rest => foldl (λ acc s, acc +:+ "/" +:+ s) d rest
  end.

Definition LF : Ascii.ascii := Ascii.ascii_of_nat 10.

Definition js_literal (s : string) : js_string :=
  (λ c, Z.of_nat (Ascii.nat_of_ascii c)) <$> String.list_ascii_of_string s.

(** ['\n\nappending to this file'] *)
Definition suffix : js_string :=
  js_literal (String LF (String LF "appending to this file")).

Section Script.

Variable __dirname : string.

Definition starter_txt : string := path_join [__dirname; "files"; "starter.txt"].
Definition reply_txt : string := path_join [__dirname; "files"; "reply.txt"].
Definition newreply_txt : string := path_join [__dirname; "files"; "newreply.txt"].

(** The [try] block. *)
Definition fileOps_try : async unit :=
  data ← await_text (ReadFile starter_txt);
  console_log (JString data);;
  await (Unlink starter_txt);;
  await (WriteFile reply_txt data);;
  await (AppendFile reply_txt suffix);;
  await (Rename reply_txt newreply_txt);;
  newData ← await_text (ReadFile newreply_txt);
  console_log (JString newData).

(** [const fileOps = async () => { try { ... } catch (err) { console.log(err); } }] *)
Definition fileOps : async js_value :=
  try_catch fileOps_try (λ err, console_log err);;
  mret undefined.

(** The fixed sequence of calls, given the text the first one yields. *)
Definition plan (data : js_string) : list fs_call :=
  [ ReadFile starter_txt; Unlink starter_txt; WriteFile reply_txt data;
    AppendFile reply_txt suffix; Rename reply_txt newreply_txt;
    ReadFile newreply_txt ].

(** Calling an async function yields a promise, fulfilled with the
    returned value or rejected with whatever the body threw. *)
Inductive promise :=
| Fulfilled (v : js_value)
| Rejected (reason : js_value).

Definition call_async (f : async js_value) (env : interference) (w : world)
  : promise * world :=
  match f env w with
  | (Normal v, w') => (Fulfilled v, w')
  | (Throw e, w') => (Rejected e, w')
  end.

Definition console_error (template : string) (v : js_value) (w : world) : world :=
  World (fs w) (console w ++ [Error template v]) (clock w) (trace w).

Record exit := Exit { status : Z; at_exit : world }.

(** The module body: [fileOps();] then
    [process.on('uncaughtException', err => { console.error(..); process.exit(1); })].
    The promise of [fileOps()] is dropped, so a rejection would have no
    handler and the runtime would raise it as an uncaught exception; the
    listener is registered in the first turn, before any awaited call
    settles.  Without such an exception the process ends with status 0
    once the event loop is empty. *)
Definition script (env : interference) (σ : files) : exit :=
  let r := call_async fileOps env (boot σ) in
  match r.1 with
  | Fulfilled _ => Exit 0 r.2
  | Rejected err =>
      Exit 1 (console_error "There was an uncaught error: ${err}" err r.2)
  end.

End Script.

(** What the last awaited call of a run failed with, if it failed. *)
Definition failure (w : world) : option (fs_call * fs_error) :=
  match last (trace w) with
  | Some ev => match settled ev with inl e => Some (call ev, e) | inr _ => None end
  | None => None
  end.

(** ** Vocabulary of the statements *)

(** A Unicode scalar value: a code point that is not a surrogate. *)
Definition scalar (c : Z) : Prop :=
  0 <= c <= 0x10FFFF ∧ ¬ (0xD800 <= c <= 0xDFFF).

(** The scalar values a sequence in progress can still complete to, when
    [n] continuation bytes follow the next one, all lie between [lo] and
    [hi] shifted accordingly; they must avoid the surrogates. *)
Fixpoint span_ok (n : nat) (lo hi : Z) : Prop :=
  match n with
  | O => 0 <= lo ∧ (hi < 0xD800 ∨ 0xE000 <= lo ∧ hi <= 0x10FFFF)
  | S n' => span_ok n' (lo * 0x40) (hi * 0x40 + 0x3F)
  end.

Definition pending_ok (p : Utf8.pending) : Prop :=
  span_ok (Utf8.more p)
    (Utf8.acc p * 0x40 + (Utf8.lower p - 0x80))
    (Utf8.acc p * 0x40 + (Utf8.upper p - 0x80)).

Definition state_ok (st : option Utf8.pending) : Prop :=
  match st with None => True | Some p => pending_ok p end.

Definition is_dir (o : option node) : bool :=
  match o with Some (Dir _) => true | _ => false end.

(** The other processes never change the entry [p]. *)
Definition spares (env : interference) (p : string) : Prop :=
  ∀ n σ, env n σ !! p = σ !! p.

(** The entries a call may create, change or remove. *)
Definition touches (c : fs_call) : list string :=
  match c with
  | ReadFile _ => []
  | Unlink p | WriteFile p _ | AppendFile p _ => [p]
  | Rename p q => [p; q]
  end.

(** A trace in which the calls ran one after the other from turn [n] on,
    starting on the directory [σ]: each call finds what its predecessor
    left (after the other processes moved), settles with what the call
    does on that directory, and is followed by another call only if it
    succeeded. *)
Fixpoint sequential (env : interference) (σ : files) (n : nat) (tr : list event) : Prop :=
  match tr with
  | [] => True
  | ev :: tr' =>
      turn ev = n ∧
      before ev = env n σ ∧
      perform (call ev) (before ev) = (settled ev, after ev) ∧
      (tr' ≠ [] → ∃ v, settled ev = inr v) ∧
      sequential env (after ev) (S n) tr'
  end.

(** Another process removes the entry [p] just before the call of turn [n]. *)
Definition remover (n : nat) (p : string) : interference :=
  λ k σ, if decide (k = n) then delete p σ else σ.

Definition is_log (l : console_line) : bool :=
  match l with Log _ => true | Error _ _ => false end.

Section Outcome.

Variable __dirname : string.

(** One run of [fileOps] in a fresh process started on the directory [σ]. *)
Definition run (env : interference) (σ : files) : completion js_value * world :=
  fileOps __dirname env (boot σ).

(** The state the pipeline is meant to leave behind for the text [T]. *)
Definition migrated (T : js_string) (σ : files) : Prop :=
  σ !! newreply_txt __dirname = Some (File (Utf8.encode (T ++ suffix))) ∧
  σ !! starter_txt __dirname = None ∧
  σ !! reply_txt __dirname = None.

(** The error of a read that found nothing at [p]. *)
Definition not_found (p : string) : fs_error := FsError ENOENT "open" (Some p) None.

End Outcome.

(** ** Sample directories *)

(** Only [starter.txt], holding the text [hello]. *)
Definition hello_only : files :=
  {[ starter_txt "/app" := File (Utf8.encode (js_literal "hello")) ]}.

(** The same, with a directory where [newreply.txt] should go. *)
Definition hello_with_directory : files :=
  {[ starter_txt "/app" := File (Utf8.encode (js_literal "hello"));
     newreply_txt "/app" := Dir true ]}.

(** [starter.txt] next to an older [newreply.txt]. *)
Definition hello_with_old_output : files :=
  {[ starter_txt "/app" := File (Utf8.encode (js_literal "hello"));
     newreply_txt "/app" := File (Utf8.encode (js_literal "old")) ]}.

(** ** The Express application *)

(** The server script registers, in this order,
    [app.get(/^\/$|\/index(.html)?/, ..)], [app.get('/new-page.html', ..)],
    [app.get('/old-page.html', ..)] and a final [app.use(..)].  A request
    is its method and the path of its URL; the handlers end the response
    themselves, so the first layer that matches decides. *)
Module Server.

(** The regular expressions the script needs: literal characters, [.],
    [^], [$], sequence, alternative and [?]. *)
Inductive regex :=
| Eps
| Chr (c : Ascii.ascii)
| Dot
| Bol
| Eol
| Seq (r1 r2 : regex)
| Alt (r1 r2 : regex)
| Opt (r : regex).

Fixpoint lit (s : string) : regex :=
  match s with
  | EmptyString => Eps
  | String c s' => Seq (Chr c) (lit s')
  end.

(** [.] takes any character but a line terminator. *)
Definition line_terminator (c : Ascii.ascii) : bool :=
  Ascii.eqb c (Ascii.ascii_of_nat 10) || Ascii.eqb c (Ascii.ascii_of_nat 13).

(** Backtracking matcher: [m r pos s k] matches [r] at offset [pos] of the
    input, of which [s] is what lies ahead, and hands the rest to [k]. *)
Fixpoint m (r : regex) (pos : nat) (s : string) (k : nat → string → bool) : bool :=
  match r with
  | Eps => k pos s
  | Chr c =>
      match s with
      | String x s' => if Ascii.eqb x c then k (S pos) s' else false
      | EmptyString => false
      end
  | Dot =>
      match s with
      | String x s' => if line_terminator x then false else k (S pos) s'
      | EmptyString => false
      end
  | Bol => match pos with O => k pos s | S _ => false end
  | Eol => match s with EmptyString => k pos s | String _ _ => false end
  | Seq r1 r2 => m r1 pos s (λ pos' s', m r2 pos' s' k)
  | Alt r1 r2 => m r1 pos s k || m r2 pos s k
  | Opt r1 => m r1 pos s k || k pos s
  end.

(** [r.test(s)] without flags: a match may start at any offset. *)
Fixpoint search (r : regex) (pos : nat) (s : string) : bool :=
  m r pos s (λ _ _, true) ||
  match s with
  | EmptyString => false
  | String _ s' => search r (S pos) s'
  end.

Definition test (r : regex) (s : string) : bool := search r 0 s.

(** [/^\/$|\/index(.html)?/] *)
Definition index_re : regex :=
  Alt (Seq Bol (Seq (lit "/") Eol))
      (Seq (lit "/index") (Opt (Seq Dot (lit "html")))).

(** Letters compared without case, as string routes are by default. *)
Definition lower (c : Ascii.ascii) : Ascii.ascii :=
  let n := Ascii.nat_of_ascii c in
  if (65 <=? n)%nat && (n <=? 90)%nat then Ascii.ascii_of_nat (n + 32) else c.

Fixpoint lowercase (s : string) : string :=
  match s with
  | EmptyString => EmptyString
  | String c s' => String (lower c) (lowercase s')
  end.

Inductive pattern :=
| PRegExp (r : regex)
| PString (s : string).

(** A string route matches the whole path, with or without a trailing
    slash and whatever the case of the letters. *)
Definition pattern_matches (pat : pattern) (p : string) : bool :=
  match pat with
  | PRegExp r => test r p
  | PString s =>
      bool_decide (lowercase p = lowercase s) ||
      bool_decide (lowercase p = lowercase s +:+ "/")
  end.

Inductive method := GET | HEAD | POST | PUT | DELETE | PATCH | OPTIONS.

Record request := Request { req_method : method; req_path : string }.

Inductive response :=
| SendFile (status : Z) (file : string)
| Redirect (status : Z) (location : string).

Inductive layer :=
| Get (pat : pattern) (handler : request → response)
| Use (handler : request → response).

(** [app.get] routes also answer HEAD requests. *)
Definition layer_matches (l : layer) (req : request) : bool :=
  match l with
  | Get pat _ =>
      match req_method req with
      | GET | HEAD => pattern_matches pat (req_path req)
      | _ => false
      end
  | Use _ => true
  end.

Definition layer_handler (l : layer) : request → response :=
  match l with Get _ h => h | Use h => h end.

Fixpoint dispatch (stack : list layer) (req : request) : option response :=
  match stack with
  | [] => None
  | l :: stack' =>
      if layer_matches l req then Some (layer_handler l req) else dispatch stack' req
  end.

Section App.

Variable __dirname : string.

Definition index_html : string := path_join [__dirname; "views"; "index.html"].
Definition new_page_html : string := path_join [__dirname; "views"; "new-page.html"].
Definition not_found_html : string := path_join [__dirname; "views"; "404.html"].

Definition app : list layer :=
  [ Get (PRegExp index_re) (λ _, SendFile 200 index_html);
    Get (PString "/new-page.html") (λ _, SendFile 200 new_page_html);
    Get (PString "/old-page.html") (λ _, Redirect 301 "/new-page.html");
    Use (λ _, SendFile 404 not_found_html) ].

End App.

End Server.

(** ** Further vocabulary *)

(** [t] occurs somewhere in [s]. *)
Definition contains (t s : string) : Prop := ∃ a b, s = a +:+ t +:+ b.

(** * Properties of the text codec *)

Ltac Zify.zify_post_hook ::= Z.to_euclidean_division_equations.

(** Settles the integer comparisons of the goal one way or the other. *)
Ltac settle_tests :=
  repeat match goal with
  | |- context [?a <=? ?b] =>
      first [ replace (a <=? b) with true by (symmetry; apply Z.leb_le; lia)
            | replace (a <=? b) with false by (symmetry; apply Z.leb_gt; lia) ]
  | |- context [?a <? ?b] =>
      first [ replace (a <? b) with true by (symmetry; apply Z.ltb_lt; lia)
            | replace (a <? b) with false by (symmetry; apply Z.ltb_ge; lia) ]
  | |- context [?a =? ?b] =>
      first [ replace (a =? b) with true by (symmetry; apply Z.eqb_eq; lia)
            | replace (a =? b) with false by (symmetry; apply Z.eqb_neq; lia) ]
  end.

Lemma decode_put c rest :
  scalar c →
  Utf8.decode_from None (Utf8.put c ++ rest) = Utf8.units c ++ Utf8.decode_from None rest.
Proof.
  intros [Hr Hs]. unfold Utf8.put.
  destruct (Z.ltb_spec c 0x80); [|destruct (Z.ltb_spec c 0x800); [|destruct (Z.ltb_spec c 0x10000)]].
  - cbn [app Utf8.decode_from]. unfold Utf8.lead. settle_tests. reflexivity.
  - cbn [app Utf8.decode_from]. unfold Utf8.lead. settle_tests.
    cbn [andb Utf8.lower Utf8.upper Utf8.more Utf8.acc]. settle_tests. cbn [andb].
    f_equal. f_equal. lia.
  - cbn [app Utf8.decode_from]. unfold Utf8.lead. settle_tests.
    cbn [andb Utf8.lower Utf8.upper Utf8.more Utf8.acc].
    destruct (Z.eqb_spec (0xE0 + c / 0x1000) 0xE0); destruct (Z.eqb_spec (0xE0 + c / 0x1000) 0xED);
      settle_tests; cbn [andb Utf8.lower Utf8.upper Utf8.more Utf8.acc]; settle_tests;
      cbn [andb]; f_equal; f_equal; lia.
  - cbn [app Utf8.decode_from]. unfold Utf8.lead. settle_tests.
    cbn [andb Utf8.lower Utf8.upper Utf8.more Utf8.acc].
    destruct (Z.eqb_spec (0xF0 + c / 0x40000) 0xF0); destruct (Z.eqb_spec (0xF0 + c / 0x40000) 0xF4);
      settle_tests; cbn [andb Utf8.lower Utf8.upper Utf8.more Utf8.acc]; settle_tests;
      cbn [andb Utf8.lower Utf8.upper Utf8.more Utf8.acc]; settle_tests;
      cbn [andb]; f_equal; f_equal; lia.
Qed.

Lemma units_bmp u : u < 0x10000 → Utf8.units u = [u].
Proof. intros. unfold Utf8.units. settle_tests. reflexivity. Qed.

Lemma units_pair h l :
  Utf8.is_high h = true → Utf8.is_low l = true →
  Utf8.units (0x10000 + (h - 0xD800) * 0x400 + (l - 0xDC00)) = [h; l].
Proof.
  unfold Utf8.is_high, Utf8.is_low. intros Hh Hl.
  apply andb_true_iff in Hh as [?%Z.leb_le ?%Z.leb_le].
  apply andb_true_iff in Hl as [?%Z.leb_le ?%Z.leb_le].
  unfold Utf8.units. settle_tests. f_equal; [|f_equal]; lia.
Qed.

Lemma scalar_bmp u :
  0 <= u <= 0xFFFF → Utf8.is_high u = false → Utf8.is_low u = false → scalar u.
Proof.
  unfold Utf8.is_high, Utf8.is_low, scalar. intros Hu Hh Hl.
  apply andb_false_iff in Hh. apply andb_false_iff in Hl.
  rewrite !Z.leb_gt in Hh, Hl. lia.
Qed.

Lemma scalar_pair h l :
  Utf8.is_high h = true → Utf8.is_low l = true →
  scalar (0x10000 + (h - 0xD800) * 0x400 + (l - 0xDC00)).
Proof.
  unfold Utf8.is_high, Utf8.is_low, scalar. intros Hh Hl.
  apply andb_true_iff in Hh as [?%Z.leb_le ?%Z.leb_le].
  apply andb_true_iff in Hl as [?%Z.leb_le ?%Z.leb_le]. lia.
Qed.

(** One step of [encode] on each shape of a well-formed string. *)
Lemma encode_bmp u s :
  Utf8.is_high u = false → Utf8.is_low u = false →
  Utf8.encode (u :: s) = Utf8.put u ++ Utf8.encode s.
Proof. intros Hh Hl. cbn [Utf8.encode]. rewrite Hh, Hl. reflexivity. Qed.

Lemma encode_pair h l s :
  Utf8.is_high h = true → Utf8.is_low l = true →
  Utf8.encode (h :: l :: s) =
  Utf8.put (0x10000 + (h - 0xD800) * 0x400 + (l - 0xDC00)) ++ Utf8.encode s.
Proof. intros Hh Hl. cbn [Utf8.encode]. rewrite Hh, Hl. reflexivity. Qed.

(** Reading back what was written from a well-formed string gives the
    string, whatever bytes follow. *)
Lemma decode_encode_app s rest :
  Utf8.well_formed s →
  Utf8.decode_from None (Utf8.encode s ++ rest) = s ++ Utf8.decode_from None rest.
Proof.
  induction 1 as [|u s Hu Hh Hl _ IH|h l s Hh Hl _ IH].
  - reflexivity.
  - rewrite encode_bmp by assumption. rewrite <- app_assoc.
    rewrite decode_put by (apply scalar_bmp; assumption).
    rewrite units_bmp by lia. rewrite IH. reflexivity.
  - rewrite encode_pair by assumption. rewrite <- app_assoc.
    rewrite decode_put by (apply scalar_pair; assumption).
    rewrite units_pair by assumption. rewrite IH. reflexivity.
Qed.

Lemma decode_encode s : Utf8.well_formed s → Utf8.decode (Utf8.encode s) = s.
Proof.
  intros H. unfold Utf8.decode.
  rewrite <- (app_nil_r (Utf8.encode s)), decode_encode_app by assumption.
  cbn. apply app_nil_r.
Qed.

(** Writing a well-formed string and then another is writing their
    concatenation. *)
Lemma encode_app s t :
  Utf8.well_formed s → Utf8.encode (s ++ t) = Utf8.encode s ++ Utf8.encode t.
Proof.
  induction 1 as [|u s Hu Hh Hl _ IH|h l s Hh Hl _ IH].
  - reflexivity.
  - rewrite <- app_comm_cons, !encode_bmp by assumption.
    rewrite IH. apply app_assoc.
  - rewrite <- !app_comm_cons, !encode_pair by assumption.
    rewrite IH. apply app_assoc.
Qed.

Lemma well_formed_app s t :
  Utf8.well_formed s → Utf8.well_formed t → Utf8.well_formed (s ++ t).
Proof.
  induction 1; intros Ht; cbn [app]; [assumption| |].
  - apply Utf8.wf_bmp; auto.
  - apply Utf8.wf_pair; auto.
Qed.

Lemma well_formed_units c s :
  scalar c → Utf8.well_formed s → Utf8.well_formed (Utf8.units c ++ s).
Proof.
  intros [Hr Hs] Hwf. unfold Utf8.units.
  destruct (Z.ltb_spec c 0x10000); cbn [app].
  - apply Utf8.wf_bmp; [lia| | |assumption];
      unfold Utf8.is_high, Utf8.is_low; apply andb_false_iff; rewrite !Z.leb_gt; lia.
  - apply Utf8.wf_pair; [| |assumption];
      unfold Utf8.is_high, Utf8.is_low; apply andb_true_iff; rewrite !Z.leb_le; lia.
Qed.

Lemma span_ok_mono n lo hi lo' hi' :
  span_ok n lo hi → lo <= lo' → hi' <= hi → span_ok n lo' hi'.
Proof.
  revert lo hi lo' hi'. induction n as [|n IH]; cbn [span_ok]; intros lo hi lo' hi' H Hlo Hhi.
  - lia.
  - eapply IH; [exact H| |]; lia.
Qed.

Lemma lead_ok b :
  match Utf8.lead b with
  | Utf8.Emit c => scalar c
  | Utf8.Start p => pending_ok p
  end.
Proof.
  unfold Utf8.lead.
  destruct (Z.leb_spec 0 b), (Z.leb_spec b 0x7F); cbn [andb]; try (unfold scalar; lia).
  all: destruct (Z.leb_spec 0xC2 b), (Z.leb_spec b 0xDF); cbn [andb];
    try (unfold pending_ok; cbn; lia).
  all: destruct (Z.leb_spec 0xE0 b), (Z.leb_spec b 0xEF); cbn [andb];
    try (unfold pending_ok; cbn [Utf8.more Utf8.acc Utf8.lower Utf8.upper span_ok];
         destruct (Z.eqb_spec b 0xE0), (Z.eqb_spec b 0xED); lia).
  all: destruct (Z.leb_spec 0xF0 b), (Z.leb_spec b 0xF4); cbn [andb];
    try (unfold pending_ok; cbn [Utf8.more Utf8.acc Utf8.lower Utf8.upper span_ok];
         destruct (Z.eqb_spec b 0xF0), (Z.eqb_spec b 0xF4); lia).
  all: unfold scalar, Utf8.REPLACEMENT; lia.
Qed.

Lemma well_formed_replacement s :
  Utf8.well_formed s → Utf8.well_formed (Utf8.REPLACEMENT :: s).
Proof. intros H. apply Utf8.wf_bmp; [unfold Utf8.REPLACEMENT; lia|reflexivity|reflexivity|exact H]. Qed.

(** Whatever the bytes, reading text yields a well-formed string. *)
Lemma decode_from_well_formed bs :
  ∀ st, state_ok st → Utf8.well_formed (Utf8.decode_from st bs).
Proof.
  induction bs as [|b bs IH]; intros st Hst.
  - destruct st; cbn; [apply well_formed_replacement|]; constructor.
  - cbn [Utf8.decode_from].
    assert (Hfresh : Utf8.well_formed
              match Utf8.lead b with
              | Utf8.Emit c => Utf8.units c ++ Utf8.decode_from None bs
              | Utf8.Start p => Utf8.decode_from (Some p) bs
              end).
    { pose proof (lead_ok b) as Hl. destruct (Utf8.lead b).
      - apply well_formed_units; [exact Hl|apply IH; exact I].
      - apply IH. exact Hl. }
    destruct st as [p|]; [|exact Hfresh].
    destruct (Z.leb_spec (Utf8.lower p) b), (Z.leb_spec b (Utf8.upper p)); cbn [andb];
      try (apply well_formed_replacement; exact Hfresh).
    unfold state_ok, pending_ok in Hst.
    destruct (Utf8.more p) as [|n] eqn:Hm; cbn [span_ok] in Hst.
    + apply well_formed_units; [unfold scalar; lia|apply IH; exact I].
    + apply IH. unfold state_ok, pending_ok. cbn [Utf8.more Utf8.acc Utf8.lower Utf8.upper].
      eapply span_ok_mono; [exact Hst| |]; lia.
Qed.

Lemma decode_well_formed bs : Utf8.well_formed (Utf8.decode bs).
Proof. apply decode_from_well_formed. exact I. Qed.

Lemma well_formed_literal s :
  forallb (λ c, (Ascii.nat_of_ascii c <? 128)%nat) (String.list_ascii_of_string s) = true →
  Utf8.well_formed (js_literal s).
Proof.
  unfold js_literal. induction (String.list_ascii_of_string s) as [|c l IH]; cbn [forallb fmap list_fmap].
  - constructor.
  - intros [Hc Hl]%andb_true_iff. apply Nat.ltb_lt in Hc.
    apply Utf8.wf_bmp; [lia| | |apply IH; exact Hl];
      unfold Utf8.is_high, Utf8.is_low; apply andb_false_iff; left; apply Z.leb_gt; lia.
Qed.

Lemma well_formed_suffix : Utf8.well_formed suffix.
Proof. apply well_formed_literal. reflexivity. Qed.

(** * Properties of the filesystem calls *)

Lemma starter_reply d : starter_txt d ≠ reply_txt d.
Proof. intros H. apply (inj (String.append _)) in H. discriminate. Qed.

Lemma starter_newreply d : starter_txt d ≠ newreply_txt d.
Proof. intros H. apply (inj (String.append _)) in H. discriminate. Qed.

Lemma reply_newreply d : reply_txt d ≠ newreply_txt d.
Proof. intros H. apply (inj (String.append _)) in H. discriminate. Qed.

Create HintDb paths.
#[local] Hint Resolve starter_reply starter_newreply reply_newreply : paths.

(** A call changes no entry besides those it names. *)
Lemma perform_frame c σ p :
  p ∉ touches c → (perform c σ).2 !! p = σ !! p.
Proof.
  destruct c as [q|q|q data|q data|q q']; cbn [touches perform];
    unfold string_value, unit_value, readFile, unlink, writeFile, appendFile, rename;
    intros Hp; repeat case_match; cbn [snd]; try reflexivity;
    rewrite ?lookup_insert_ne, ?lookup_delete_ne by set_solver; reflexivity.
Qed.

(** A call that fails changes nothing. *)
Lemma perform_failed c σ e σ' : perform c σ = (inl e, σ') → σ' = σ.
Proof.
  destruct c as [q|q|q data|q data|q q']; cbn [perform];
    unfold string_value, unit_value, readFile, unlink, writeFile, appendFile, rename;
    intros H; repeat case_match; cbn [fst snd] in *; simplify_eq; reflexivity.
Qed.

Lemma perform_read_file p σ b :
  σ !! p = Some (File b) →
  perform (ReadFile p) σ = (inr (JString (Utf8.decode b)), σ).
Proof. intros H. cbn. unfold readFile. rewrite H. reflexivity. Qed.

Lemma perform_read_absent p σ :
  σ !! p = None → perform (ReadFile p) σ = (inl (not_found p), σ).
Proof. intros H. cbn. unfold readFile. rewrite H. reflexivity. Qed.

Lemma perform_read_inv p σ v σ' :
  perform (ReadFile p) σ = (inr v, σ') →
  ∃ b, σ !! p = Some (File b) ∧ v = JString (Utf8.decode b) ∧ σ' = σ.
Proof.
  cbn. unfold string_value, readFile. intros H.
  destruct (σ !! p) as [[b|e]|]; cbn in H; simplify_eq. eauto.
Qed.

Lemma perform_unlink_file p σ b :
  σ !! p = Some (File b) → perform (Unlink p) σ = (inr undefined, delete p σ).
Proof. intros H. cbn. unfold unlink. rewrite H. reflexivity. Qed.

Lemma perform_write p data σ :
  is_dir (σ !! p) = false →
  perform (WriteFile p data) σ = (inr undefined, <[p := File (Utf8.encode data)]> σ).
Proof.
  intros H. cbn [perform]. unfold writeFile.
  destruct (σ !! p) as [[b|e]|]; cbn [is_dir] in H; try discriminate; reflexivity.
Qed.

Lemma perform_append_file p data σ b :
  σ !! p = Some (File b) →
  perform (AppendFile p data) σ = (inr undefined, <[p := File (b ++ Utf8.encode data)]> σ).
Proof. intros H. cbn. unfold appendFile. rewrite H. reflexivity. Qed.

Lemma perform_rename_file p q σ b :
  p ≠ q → σ !! p = Some (File b) → is_dir (σ !! q) = false →
  perform (Rename p q) σ = (inr undefined, <[q := File b]> (delete p σ)).
Proof.
  intros Hne Hp Hq. cbn. unfold rename. rewrite Hp.
  destruct (decide (p = q)); [contradiction|].
  destruct (σ !! q) as [[b'|e]|]; cbn [is_dir] in Hq; try discriminate; reflexivity.
Qed.

Lemma perform_rename_failed p q σ e σ' :
  perform (Rename p q) σ = (inl e, σ') →
  syscall e = "rename" ∧ path e = Some p ∧ dest e = Some q.
Proof.
  cbn. unfold unit_value, rename. intros H.
  repeat case_match; cbn [fst snd] in *; simplify_eq; auto.
Qed.

Lemma perform_write_inv p data σ v σ' :
  perform (WriteFile p data) σ = (inr v, σ') → is_dir (σ !! p) = false.
Proof.
  cbn [perform]. unfold unit_value, writeFile. intros H.
  destruct (σ !! p) as [[b|e]|]; cbn [fst snd] in H; simplify_eq; reflexivity.
Qed.

Lemma perform_append_inv p data σ v σ' :
  perform (AppendFile p data) σ = (inr v, σ') → ∃ b, σ' !! p = Some (File b).
Proof.
  cbn [perform]. unfold unit_value, appendFile. intros H.
  destruct (σ !! p) as [[b|e]|]; cbn [fst snd] in H; simplify_eq;
    eexists; apply lookup_insert_eq.
Qed.

Lemma perform_rename_inv p q σ b v σ' :
  p ≠ q → σ !! p = Some (File b) →
  perform (Rename p q) σ = (inr v, σ') → is_dir (σ !! q) = false.
Proof.
  intros Hne Hp. cbn [perform]. unfold unit_value, rename. rewrite Hp.
  destruct (decide (p = q)); [contradiction|]. intros H.
  destruct (σ !! q) as [[b'|e]|]; cbn [fst snd] in H; simplify_eq; reflexivity.
Qed.

(** * Properties of the pipeline *)

Ltac unfold_run :=
  unfold run, script, call_async, fileOps, fileOps_try, try_catch, await_text,
    console_log, console_error, mbind, mret, async_bind, async_ret, await, boot;
  cbn [fs console clock trace fst snd].

(** Lets the script go on after a call whose outcome is known. *)
Ltac resume := cbn [fs console clock trace fst snd app].

(** Splits on how the next awaited call settles. *)
Ltac next_call :=
  match goal with
  | |- context [perform ?c ?σ] =>
      let e := fresh "e" in
      let v := fresh "v" in
      let σ' := fresh "σ" in
      let H := fresh "Hcall" in
      destruct (perform c σ) as [[e|v] σ'] eqn:H;
      cbn [fs console clock trace fst snd]
  end.

(** The shape of every run: which calls were made, in which order and on
    which directories. *)
Lemma run_sequential d env σ :
  let w := (run d env σ).2 in
  (∃ data, call <$> trace w `prefix_of` plan d data) ∧
  sequential env σ 0 (trace w) ∧
  fs w = from_option after σ (last (trace w)) ∧
  clock w = length (trace w).
Proof.
  cbn zeta. split.
  { exists (match (perform (ReadFile (starter_txt d)) (env 0%nat σ)).1 with
            | inr (JString s) => s
            | _ => []
            end).
    unfold_run. repeat next_call; cbn [app fmap list_fmap call];
      unfold plan; eexists; cbn [app]; reflexivity. }
  unfold_run. repeat next_call; cbn [app sequential turn before after settled call last];
    repeat split; try assumption; try reflexivity;
    try solve [intros _; eexists; reflexivity];
    try solve [intros Hnil; exfalso; apply Hnil; reflexivity].
Qed.

(** C8: in every run the awaited calls form an initial part of the fixed
    sequence read, unlink, write, append, rename, read; each runs in a turn
    of its own, finds the directory its predecessor left (the delete thus
    only after a successful read), is followed by a further call only if it
    succeeded, none is repeated, and the directory at the end is the one
    the last call left: nothing is rolled back. *)
Theorem steps_run_in_order d env σ :
  let w := (run d env σ).2 in
  (∃ data, call <$> trace w `prefix_of` plan d data) ∧
  sequential env σ 0 (trace w) ∧
  fs w = from_option after σ (last (trace w)) ∧
  clock w = length (trace w).
Proof. apply run_sequential. Qed.

Lemma sequential_last env tr :
  ∀ σ n ev, sequential env σ n tr → last tr = Some ev →
            perform (call ev) (before ev) = (settled ev, after ev).
Proof.
  induction tr as [|ev' tr IH]; intros σ n ev Hseq Hlast; [discriminate Hlast|].
  cbn [sequential] in Hseq. destruct Hseq as (_ & _ & Hperf & _ & Hrest).
  destruct tr as [|ev'' tr].
  - cbn in Hlast. simplify_eq. exact Hperf.
  - eapply IH; [exact Hrest|exact Hlast].
Qed.

(** What a run leaves on the console and hands back, whichever call
    failed: the catch handler logs the error as the last line and the
    function returns normally. *)
Lemma run_catches d env σ :
  (run d env σ).1 = Normal undefined ∧
  forallb is_log (console (run d env σ).2) = true ∧
  ∀ c e, failure (run d env σ).2 = Some (c, e) →
         last (console (run d env σ).2) = Some (Log (JError e)).
Proof.
  unfold_run. repeat next_call; cbn [app forallb is_log andb];
    (split; [reflexivity|split; [reflexivity|]]);
    intros c err; unfold failure; cbn [app last trace settled call];
    intros Hf; simplify_eq; reflexivity.
Qed.

Lemma script_of_run d env σ :
  (call_async (fileOps d) env (boot σ)).1 = Fulfilled undefined →
  script d env σ = Exit 0 (run d env σ).2.
Proof.
  unfold script, run, call_async.
  destruct (fileOps d env (boot σ)) as [[v|e] w]; cbn [fst snd]; intros H; simplify_eq.
  reflexivity.
Qed.

Lemma promise_of_run d env σ :
  (run d env σ).1 = Normal undefined →
  (call_async (fileOps d) env (boot σ)).1 = Fulfilled undefined.
Proof.
  unfold run, call_async.
  destruct (fileOps d env (boot σ)) as [[v|e] w]; cbn [fst snd]; intros H; simplify_eq.
  reflexivity.
Qed.

(** C9: whatever the directory holds and whatever other processes do, the
    promise of [fileOps] is fulfilled (with [undefined]) and never
    rejected; a failing call is caught and only logged, the
    uncaught-exception listener prints nothing, and the process ends with
    status 0. *)
Theorem fileOps_never_rejects d env σ :
  (call_async (fileOps d) env (boot σ)).1 = Fulfilled undefined ∧
  status (script d env σ) = 0 ∧
  forallb is_log (console (at_exit (script d env σ))) = true ∧
  ∀ c e, failure (run d env σ).2 = Some (c, e) →
         last (console (run d env σ).2) = Some (Log (JError e)).
Proof.
  destruct (run_catches d env σ) as (Hret & Hlog & Hcatch).
  pose proof (promise_of_run d env σ Hret) as Hp.
  rewrite (script_of_run d env σ Hp). cbn [status at_exit].
  repeat split; assumption.
Qed.

(** C2, as stated, fails on an empty directory: the read fails, yet the
    caller gets a fulfilled promise and the process ends with status 0. *)
Lemma failure_not_surfaced :
  ¬ (∀ d env σ c e,
       failure (run d env σ).2 = Some (c, e) →
       (call_async (fileOps d) env (boot σ)).1 = Rejected (JError e) ∧
       status (script d env σ) ≠ 0).
Proof.
  intros H.
  destruct (H "/app" quiet ∅ (ReadFile (starter_txt "/app")) (not_found (starter_txt "/app")))
    as [Hrej _]; [vm_compute; reflexivity|].
  vm_compute in Hrej. discriminate.
Qed.

(** C2, amended: when a call fails, the error object it rejected with
    (code, syscall and paths of the failing operation) is logged as the
    last console line, no later call runs, the promise handed to the caller
    is fulfilled with [undefined], and the process ends with status 0. *)
Theorem failure_is_logged d env σ c e :
  failure (run d env σ).2 = Some (c, e) →
  (∃ ev, last (trace (run d env σ).2) = Some ev ∧
         call ev = c ∧ perform c (before ev) = (inl e, after ev)) ∧
  last (console (run d env σ).2) = Some (Log (JError e)) ∧
  (call_async (fileOps d) env (boot σ)).1 = Fulfilled undefined ∧
  status (script d env σ) = 0.
Proof.
  intros Hf.
  destruct (run_catches d env σ) as (Hret & _ & Hcatch).
  pose proof (promise_of_run d env σ Hret) as Hp.
  rewrite (script_of_run d env σ Hp). cbn [status].
  split; [|split; [exact (Hcatch c e Hf)|split; [exact Hp|reflexivity]]].
  destruct (run_sequential d env σ) as (_ & Hseq & _).
  unfold failure in Hf.
  destruct (last (trace (run d env σ).2)) as [ev|] eqn:Hlast; [|discriminate].
  destruct (settled ev) as [e'|v] eqn:Hs; simplify_eq.
  exists ev. split; [reflexivity|]. split; [reflexivity|].
  rewrite <- Hs. exact (sequential_last env _ σ 0%nat ev Hseq Hlast).
Qed.

Lemma failure_is_logged_witness :
  failure (run "/app" quiet ∅).2
    = Some (ReadFile (starter_txt "/app"), not_found (starter_txt "/app")) ∧
  last (console (run "/app" quiet ∅).2)
    = Some (Log (JError (not_found (starter_txt "/app")))) ∧
  status (script "/app" quiet ∅) = 0.
Proof.
  assert (H : failure (run "/app" quiet ∅).2
              = Some (ReadFile (starter_txt "/app"), not_found (starter_txt "/app")))
    by (vm_compute; reflexivity).
  split; [exact H|].
  destruct (failure_is_logged "/app" quiet ∅ _ _ H) as (_ & Hlog & _ & Hst).
  split; [exact Hlog|exact Hst].
Defined.

Lemma hello_well_formed : Utf8.well_formed (js_literal "hello").
Proof. apply well_formed_literal. reflexivity. Qed.

(** C3, as stated, fails on the directory holding [starter.txt] = [hello]:
    every call succeeds, and the caller receives [undefined], not the text
    of [newreply.txt]. *)
Lemma text_not_returned :
  ¬ (∀ d env σ,
       failure (run d env σ).2 = None →
       ∃ b, fs (run d env σ).2 !! newreply_txt d = Some (File b) ∧
            (run d env σ).1 = Normal (JString (Utf8.decode b))).
Proof.
  intros H.
  destruct (H "/app" quiet hello_only) as (b & _ & Hret); [vm_compute; reflexivity|].
  rewrite (proj1 (run_catches _ _ _)) in Hret. discriminate Hret.
Qed.

(** C3, amended: when every call succeeds, the text produced by the final
    read, which is the decoded content of [newreply.txt] as the run leaves
    it, is the last line logged to the console; the promise handed to the
    caller is fulfilled with [undefined]. *)
Theorem final_text_is_logged d env σ :
  failure (run d env σ).2 = None →
  ∃ b, fs (run d env σ).2 !! newreply_txt d = Some (File b) ∧
       last (console (run d env σ).2) = Some (Log (JString (Utf8.decode b))) ∧
       (call_async (fileOps d) env (boot σ)).1 = Fulfilled undefined.
Proof.
  intros Hf.
  destruct (run_catches d env σ) as (Hret & _ & _).
  pose proof (promise_of_run d env σ Hret) as Hp. clear Hret.
  revert Hf Hp. generalize ((call_async (fileOps d) env (boot σ)).1). intros pr.
  unfold_run. repeat next_call; unfold failure; cbn [app last trace settled call];
    intros Hf Hp; try discriminate Hf.
  apply perform_read_inv in Hcall4 as (b & Hb & -> & ->).
  exists b. split; [exact Hb|]. split; [reflexivity|exact Hp].
Qed.

Lemma final_text_is_logged_witness :
  ∃ b, fs (run "/app" quiet hello_only).2 !! newreply_txt "/app" = Some (File b) ∧
       last (console (run "/app" quiet hello_only).2)
         = Some (Log (JString (Utf8.decode b))) ∧
       (call_async (fileOps "/app") quiet (boot hello_only)).1 = Fulfilled undefined.
Proof. apply final_text_is_logged. vm_compute. reflexivity. Defined.

Lemma run_without_starter d env σ :
  env 0%nat σ !! starter_txt d = None →
  run d env σ =
    (Normal undefined,
     World (env 0%nat σ) [Log (JError (not_found (starter_txt d)))] 1
       [Event (ReadFile (starter_txt d)) (env 0%nat σ) (env 0%nat σ)
          (inl (not_found (starter_txt d))) 0]).
Proof.
  intros Habs. unfold_run.
  rewrite (perform_read_absent _ _ Habs). resume. reflexivity.
Qed.

(** C4: on every directory without [starter.txt] the first read fails
    with ENOENT; it is the only call made, its error is what gets logged,
    and the directory after the run is the directory before it: nothing is
    created, deleted or modified. *)
Theorem absent_starter_fails_first d σ :
  σ !! starter_txt d = None →
  trace (run d quiet σ).2 =
    [Event (ReadFile (starter_txt d)) σ σ (inl (not_found (starter_txt d))) 0] ∧
  code (not_found (starter_txt d)) = ENOENT ∧
  console (run d quiet σ).2 = [Log (JError (not_found (starter_txt d)))] ∧
  fs (run d quiet σ).2 = σ.
Proof.
  intros Habs. rewrite (run_without_starter d quiet σ Habs).
  cbn [snd trace fs console]. unfold quiet. repeat split.
Qed.

Lemma absent_starter_fails_first_witness :
  trace (run "/app" quiet ∅).2 =
    [Event (ReadFile (starter_txt "/app")) ∅ ∅ (inl (not_found (starter_txt "/app"))) 0] ∧
  code (not_found (starter_txt "/app")) = ENOENT ∧
  console (run "/app" quiet ∅).2 = [Log (JError (not_found (starter_txt "/app")))] ∧
  fs (run "/app" quiet ∅).2 = ∅.
Proof. apply (absent_starter_fails_first "/app" ∅). vm_compute. reflexivity. Defined.

(** Shows that an entry is none of those a call names. *)
Ltac untouched :=
  cbn [touches];
  repeat (apply not_elem_of_cons; split; [auto with paths|]);
  apply not_elem_of_nil.

(** An entry that neither the call nor the other processes touch is the
    same after the turn as before. *)
Lemma turn_frame c env n σ r σ' p :
  perform c (env n σ) = (r, σ') → spares env p → p ∉ touches c →
  σ' !! p = σ !! p.
Proof.
  intros Hperf Hsp Hp.
  replace σ' with (perform c (env n σ)).2 by (rewrite Hperf; reflexivity).
  rewrite perform_frame by exact Hp. apply Hsp.
Qed.

Lemma call_frame c σ r σ' p :
  perform c σ = (r, σ') → p ∉ touches c → σ' !! p = σ !! p.
Proof. intros Hperf. exact (turn_frame c quiet 0%nat σ r σ' p Hperf (λ _ _, eq_refl)). Qed.

Lemma quiet_spares p : spares quiet p.
Proof. intros n σ. reflexivity. Qed.

Lemma remover_spares n p q : p ≠ q → spares (remover n p) q.
Proof.
  intros Hne k σ. unfold remover. destruct (decide (k = n)); [|reflexivity].
  apply lookup_delete_ne. exact Hne.
Qed.

(** C5, as stated, fails when [newreply.txt] is a directory: the rename is
    the call that fails, no error reaches the caller, and [newreply.txt]
    exists after the run. *)
Lemma rename_failure_leaves_destination :
  ¬ (∀ d env σ e,
       failure (run d env σ).2 = Some (Rename (reply_txt d) (newreply_txt d), e) →
       (call_async (fileOps d) env (boot σ)).1 = Rejected (JError e) ∧
       syscall e = "rename" ∧
       fs (run d env σ).2 !! newreply_txt d = None).
Proof.
  intros H.
  destruct (H "/app" quiet hello_with_directory
              (FsError EISDIR "rename" (Some (reply_txt "/app")) (Some (newreply_txt "/app"))))
    as (_ & _ & Hgone); [vm_compute; reflexivity|].
  vm_compute in Hgone. discriminate Hgone.
Qed.

(** C5, amended: when the rename is the call that fails, the error logged
    by the catch handler is the rename's own (syscall [rename], from
    [reply.txt] to [newreply.txt]), and the run has not created or changed
    [newreply.txt]: if no other process touches that entry it is as it was
    before the run, hence absent if it was absent. *)
Theorem rename_failure_is_logged d env σ e :
  failure (run d env σ).2 = Some (Rename (reply_txt d) (newreply_txt d), e) →
  syscall e = "rename" ∧ path e = Some (reply_txt d) ∧ dest e = Some (newreply_txt d) ∧
  last (console (run d env σ).2) = Some (Log (JError e)) ∧
  (spares env (newreply_txt d) →
   fs (run d env σ).2 !! newreply_txt d = σ !! newreply_txt d).
Proof.
  intros Hf.
  pose proof (proj2 (proj2 (run_catches d env σ)) _ _ Hf) as Hlog.
  revert Hf Hlog. unfold_run.
  repeat next_call; unfold failure; cbn [app last trace settled call];
    intros Hf Hlog; simplify_eq.
  destruct (perform_rename_failed _ _ _ _ _ Hcall3) as (Hs & Hp & Hd).
  repeat split; try assumption.
  intros Hsp.
  assert (Hne1 : newreply_txt d ≠ starter_txt d) by (symmetry; auto with paths).
  assert (Hne2 : newreply_txt d ≠ reply_txt d) by (symmetry; auto with paths).
  apply perform_failed in Hcall3 as ->. rewrite Hsp.
  rewrite (turn_frame _ _ _ _ _ _ _ Hcall2 Hsp) by untouched.
  rewrite (turn_frame _ _ _ _ _ _ _ Hcall1 Hsp) by untouched.
  rewrite (turn_frame _ _ _ _ _ _ _ Hcall0 Hsp) by untouched.
  rewrite (turn_frame _ _ _ _ _ _ _ Hcall Hsp) by untouched.
  reflexivity.
Qed.

(** The scenario of the specification: [reply.txt] is removed by somebody
    else just before the rename. *)
Lemma rename_failure_is_logged_witness :
  let env := remover 4 (reply_txt "/app") in
  let e := FsError ENOENT "rename" (Some (reply_txt "/app")) (Some (newreply_txt "/app")) in
  failure (run "/app" env hello_only).2
    = Some (Rename (reply_txt "/app") (newreply_txt "/app"), e) ∧
  last (console (run "/app" env hello_only).2) = Some (Log (JError e)) ∧
  fs (run "/app" env hello_only).2 !! newreply_txt "/app" = None.
Proof.
  intros env e.
  assert (Hf : failure (run "/app" env hello_only).2
               = Some (Rename (reply_txt "/app") (newreply_txt "/app"), e))
    by (vm_compute; reflexivity).
  destruct (rename_failure_is_logged "/app" env hello_only e Hf) as (_ & _ & _ & Hlog & Hkeep).
  split; [exact Hf|]. split; [exact Hlog|].
  rewrite Hkeep; [vm_compute; reflexivity|].
  apply remover_spares. apply reply_newreply.
Defined.

(** ** Undisturbed runs *)

(** The run on a directory whose [starter.txt] is a regular file and whose
    other two entries are not directories, when nobody else touches it:
    all six calls succeed, with these intermediate directories. *)
Lemma quiet_run d σ b :
  σ !! starter_txt d = Some (File b) →
  is_dir (σ !! reply_txt d) = false →
  is_dir (σ !! newreply_txt d) = false →
  let data := Utf8.decode b in
  let out := Utf8.encode data ++ Utf8.encode suffix in
  let σ1 := delete (starter_txt d) σ in
  let σ2 := <[reply_txt d := File (Utf8.encode data)]> σ1 in
  let σ3 := <[reply_txt d := File out]> σ2 in
  let σ4 := <[newreply_txt d := File out]> (delete (reply_txt d) σ3) in
  run d quiet σ =
    (Normal undefined,
     World σ4 [Log (JString data); Log (JString (data ++ suffix))] 6
       [ Event (ReadFile (starter_txt d)) σ σ (inr (JString data)) 0;
         Event (Unlink (starter_txt d)) σ σ1 (inr undefined) 1;
         Event (WriteFile (reply_txt d) data) σ1 σ2 (inr undefined) 2;
         Event (AppendFile (reply_txt d) suffix) σ2 σ3 (inr undefined) 3;
         Event (Rename (reply_txt d) (newreply_txt d)) σ3 σ4 (inr undefined) 4;
         Event (ReadFile (newreply_txt d)) σ4 σ4 (inr (JString (data ++ suffix))) 5 ]).
Proof.
  intros Hs Hr Hn data out σ1 σ2 σ3 σ4.
  assert (Hread : Utf8.decode out = data ++ suffix).
  { unfold out. rewrite <- encode_app by apply decode_well_formed.
    apply decode_encode, well_formed_app;
      [apply decode_well_formed|apply well_formed_suffix]. }
  unfold_run. unfold quiet.
  rewrite (perform_read_file _ _ _ Hs). resume.
  rewrite (perform_unlink_file _ _ _ Hs). resume. fold data σ1.
  rewrite (perform_write (reply_txt d) data σ1); resume; fold σ2.
  2:{ unfold σ1. rewrite lookup_delete_ne by auto with paths. exact Hr. }
  rewrite (perform_append_file (reply_txt d) suffix σ2 (Utf8.encode data));
    resume; fold out σ3.
  2:{ apply lookup_insert_eq. }
  rewrite (perform_rename_file (reply_txt d) (newreply_txt d) σ3 out);
    resume; fold σ4.
  2:{ auto with paths. }
  2:{ apply lookup_insert_eq. }
  2:{ unfold σ3, σ2, σ1.
      rewrite !lookup_insert_ne, lookup_delete_ne by (try symmetry; auto with paths).
      exact Hn. }
  rewrite (perform_read_file (newreply_txt d) σ4 out); resume.
  2:{ apply lookup_insert_eq. }
  rewrite Hread. reflexivity.
Qed.

(** What the undisturbed successful run leaves at the three paths. *)
Lemma quiet_run_leaves d σ b :
  σ !! starter_txt d = Some (File b) →
  is_dir (σ !! reply_txt d) = false →
  is_dir (σ !! newreply_txt d) = false →
  failure (run d quiet σ).2 = None ∧
  migrated d (Utf8.decode b) (fs (run d quiet σ).2).
Proof.
  intros Hs Hr Hn. rewrite (quiet_run d σ b Hs Hr Hn). cbn [snd fs]. split; [reflexivity|].
  unfold migrated.
  rewrite encode_app by apply decode_well_formed.
  split; [apply lookup_insert_eq|]. split.
  - rewrite lookup_insert_ne, lookup_delete_ne, !lookup_insert_ne
      by (try symmetry; auto with paths).
    apply lookup_delete_eq.
  - rewrite lookup_insert_ne by (symmetry; auto with paths). apply lookup_delete_eq.
Qed.

(** C1, as stated, fails when one of the other two paths is a directory:
    with a directory at [newreply.txt] the rename fails and the
    intermediate file stays behind. *)
Lemma directory_blocks_pipeline :
  ¬ (∀ d σ T,
       Utf8.well_formed T →
       σ !! starter_txt d = Some (File (Utf8.encode T)) →
       failure (run d quiet σ).2 = None ∧ migrated d T (fs (run d quiet σ).2)).
Proof.
  intros H.
  destruct (H "/app" hello_with_directory (js_literal "hello") hello_well_formed)
    as [Hok _]; [vm_compute; reflexivity|].
  vm_compute in Hok. discriminate Hok.
Qed.

(** C1, amended: on every directory in which [starter.txt] is a regular
    file holding the UTF-8 text [T] and neither [reply.txt] nor
    [newreply.txt] is a directory, the undisturbed run succeeds, logs [T]
    and [T] followed by the suffix, and leaves [newreply.txt] holding
    exactly the bytes of [T] followed by the suffix, with [starter.txt] and
    [reply.txt] absent. *)
Theorem pipeline_migrates d σ T :
  Utf8.well_formed T →
  σ !! starter_txt d = Some (File (Utf8.encode T)) →
  is_dir (σ !! reply_txt d) = false →
  is_dir (σ !! newreply_txt d) = false →
  failure (run d quiet σ).2 = None ∧
  migrated d T (fs (run d quiet σ).2) ∧
  console (run d quiet σ).2 = [Log (JString T); Log (JString (T ++ suffix))].
Proof.
  intros HT Hs Hr Hn.
  destruct (quiet_run_leaves d σ _ Hs Hr Hn) as [Hok Hm].
  rewrite (decode_encode T HT) in Hm.
  split; [exact Hok|]. split; [exact Hm|].
  rewrite (quiet_run d σ _ Hs Hr Hn). cbn [snd console].
  rewrite (decode_encode T HT). reflexivity.
Qed.

Lemma pipeline_migrates_witness :
  failure (run "/app" quiet hello_only).2 = None ∧
  migrated "/app" (js_literal "hello") (fs (run "/app" quiet hello_only).2) ∧
  console (run "/app" quiet hello_only).2 =
    [Log (JString (js_literal "hello")); Log (JString (js_literal "hello" ++ suffix))].
Proof.
  apply (pipeline_migrates "/app" hello_only (js_literal "hello")).
  - exact hello_well_formed.
  - vm_compute. reflexivity.
  - vm_compute. reflexivity.
  - vm_compute. reflexivity.
Defined.

(** C10: when [newreply.txt] already exists as a file and the rest of the
    pipeline can succeed, the rename succeeds and replaces the old content
    by the new one: the run ends with [newreply.txt] holding the text read
    from [starter.txt] followed by the suffix. *)
Theorem rename_replaces_existing d σ b old :
  σ !! starter_txt d = Some (File b) →
  is_dir (σ !! reply_txt d) = false →
  σ !! newreply_txt d = Some (File old) →
  failure (run d quiet σ).2 = None ∧
  (∃ ev, trace (run d quiet σ).2 !! 4%nat = Some ev ∧
         call ev = Rename (reply_txt d) (newreply_txt d) ∧
         settled ev = inr undefined ∧
         before ev !! newreply_txt d = Some (File old) ∧
         after ev !! newreply_txt d = Some (File (Utf8.encode (Utf8.decode b ++ suffix)))) ∧
  fs (run d quiet σ).2 !! newreply_txt d
    = Some (File (Utf8.encode (Utf8.decode b ++ suffix))).
Proof.
  intros Hs Hr Hn.
  assert (Hn' : is_dir (σ !! newreply_txt d) = false) by (rewrite Hn; reflexivity).
  rewrite (quiet_run d σ b Hs Hr Hn'). cbn [snd trace fs].
  rewrite encode_app by apply decode_well_formed.
  split; [reflexivity|]. split; [|apply lookup_insert_eq].
  eexists. split; [reflexivity|]. cbn [call settled before after].
  split; [reflexivity|]. split; [reflexivity|]. split; [|apply lookup_insert_eq].
  rewrite !lookup_insert_ne, lookup_delete_ne by (try symmetry; auto with paths).
  exact Hn.
Qed.

Lemma rename_replaces_existing_witness :
  hello_with_old_output !! newreply_txt "/app" = Some (File (Utf8.encode (js_literal "old"))) ∧
  failure (run "/app" quiet hello_with_old_output).2 = None ∧
  fs (run "/app" quiet hello_with_old_output).2 !! newreply_txt "/app"
    = Some (File (Utf8.encode (Utf8.decode (Utf8.encode (js_literal "hello")) ++ suffix))).
Proof.
  assert (Hn : hello_with_old_output !! newreply_txt "/app"
               = Some (File (Utf8.encode (js_literal "old"))))
    by (vm_compute; reflexivity).
  split; [exact Hn|].
  destruct (rename_replaces_existing "/app" hello_with_old_output
              (Utf8.encode (js_literal "hello")) (Utf8.encode (js_literal "old")))
    as (Hok & _ & Hnew); [vm_compute; reflexivity|vm_compute; reflexivity|exact Hn|].
  split; [exact Hok|exact Hnew].
Defined.

(** An undisturbed run in which no call fails started on a directory where
    [starter.txt] was a regular file and the other two entries were not
    directories. *)
Lemma quiet_success_inv d σ :
  failure (run d quiet σ).2 = None →
  ∃ b, σ !! starter_txt d = Some (File b) ∧
       is_dir (σ !! reply_txt d) = false ∧
       is_dir (σ !! newreply_txt d) = false.
Proof.
  unfold_run. unfold quiet.
  repeat next_call; unfold failure; cbn [app last trace settled call];
    intros Hf; try discriminate Hf.
  pose proof (perform_read_inv _ _ _ _ Hcall) as (b & Hb & _ & _).
  pose proof (perform_write_inv _ _ _ _ _ Hcall1) as Hr.
  pose proof (perform_append_inv _ _ _ _ _ Hcall2) as (out & Hout).
  pose proof (perform_rename_inv _ _ _ _ _ _ (reply_newreply d) Hout Hcall3) as Hn.
  exists b. split; [exact Hb|]. split.
  - rewrite <- Hr. f_equal. symmetry.
    rewrite (call_frame _ _ _ _ (reply_txt d) Hcall0) by untouched.
    apply (call_frame _ _ _ _ (reply_txt d) Hcall). untouched.
  - rewrite <- Hn. f_equal. symmetry.
    rewrite (call_frame _ _ _ _ (newreply_txt d) Hcall2) by untouched.
    rewrite (call_frame _ _ _ _ (newreply_txt d) Hcall1) by untouched.
    rewrite (call_frame _ _ _ _ (newreply_txt d) Hcall0) by untouched.
    apply (call_frame _ _ _ _ (newreply_txt d) Hcall). untouched.
Qed.

(** C6: in every undisturbed run in which no call fails, the text the
    final read yields is the text handed to the write of step 3 followed
    by the literal suffix appended in step 4, code unit for code unit. *)
Theorem final_read_round_trip d σ :
  failure (run d quiet σ).2 = None →
  ∃ data ev,
    call <$> trace (run d quiet σ).2 = plan d data ∧
    last (trace (run d quiet σ).2) = Some ev ∧
    call ev = ReadFile (newreply_txt d) ∧
    settled ev = inr (JString (data ++ suffix)).
Proof.
  intros Hf. destruct (quiet_success_inv d σ Hf) as (b & Hs & Hr & Hn).
  rewrite (quiet_run d σ b Hs Hr Hn). cbn [snd trace].
  eexists _, _. repeat split; reflexivity.
Qed.

Lemma final_read_round_trip_witness :
  ∃ data ev,
    call <$> trace (run "/app" quiet hello_only).2 = plan "/app" data ∧
    last (trace (run "/app" quiet hello_only).2) = Some ev ∧
    call ev = ReadFile (newreply_txt "/app") ∧
    settled ev = inr (JString (data ++ suffix)).
Proof. apply (final_read_round_trip "/app" hello_only). vm_compute. reflexivity. Defined.

(** Once the first read and the unlink have succeeded, [starter.txt] stays
    absent whatever happens to the later calls. *)
Lemma starter_consumed d σ b :
  σ !! starter_txt d = Some (File b) →
  fs (run d quiet σ).2 !! starter_txt d = None.
Proof.
  intros Hs. unfold_run. unfold quiet.
  rewrite (perform_read_file _ _ _ Hs). resume.
  rewrite (perform_unlink_file _ _ _ Hs). resume.
  repeat next_call;
    repeat match goal with
    | H : perform _ _ = (_, ?σ') |- ?σ' !! _ = None =>
        rewrite (call_frame _ _ _ _ (starter_txt d) H) by untouched; clear H
    end;
    apply lookup_delete_eq.
Qed.

(** C7: after one undisturbed run on a directory whose [starter.txt] is a
    regular file, a second run finds [starter.txt] gone: its first read
    fails with ENOENT and it makes no other call. *)
Theorem second_run_fails_at_first_read d σ b :
  σ !! starter_txt d = Some (File b) →
  let σ' := fs (run d quiet σ).2 in
  σ' !! starter_txt d = None ∧
  failure (run d quiet σ').2 = Some (ReadFile (starter_txt d), not_found (starter_txt d)) ∧
  length (trace (run d quiet σ').2) = 1%nat ∧
  fs (run d quiet σ').2 = σ'.
Proof.
  intros Hs σ'.
  assert (Hgone : σ' !! starter_txt d = None) by exact (starter_consumed d σ b Hs).
  split; [exact Hgone|].
  rewrite (run_without_starter d quiet σ' Hgone). repeat split.
Qed.

Lemma second_run_fails_at_first_read_witness :
  let σ' := fs (run "/app" quiet hello_only).2 in
  σ' !! starter_txt "/app" = None ∧
  failure (run "/app" quiet σ').2
    = Some (ReadFile (starter_txt "/app"), not_found (starter_txt "/app")) ∧
  length (trace (run "/app" quiet σ').2) = 1%nat ∧
  fs (run "/app" quiet σ').2 = σ'.
Proof.
  apply (second_run_fails_at_first_read "/app" hello_only (Utf8.encode (js_literal "hello"))).
  vm_compute. reflexivity.
Defined.

(** * The model on concrete inputs *)

(** A truncated three-byte sequence followed by an ASCII letter, and an
    encoded surrogate, which the decoder refuses byte by byte. *)
Example decode_malformed :
  Utf8.decode [0xE2; 0x82; 0x41] = [0xFFFD; 0x41] ∧
  Utf8.decode [0xED; 0xA0; 0x80] = [0xFFFD; 0xFFFD; 0xFFFD].
Proof. split; reflexivity. Qed.

(** One scalar value of each length, and a surrogate on its own. *)
Example encode_lengths :
  Utf8.encode [0x41; 0xE9; 0x20AC; 0xD83D; 0xDE00; 0xD800]
  = [0x41; 0xC3; 0xA9; 0xE2; 0x82; 0xAC; 0xF0; 0x9F; 0x98; 0x80; 0xEF; 0xBF; 0xBD].
Proof. reflexivity. Qed.

Example paths_of_app :
  starter_txt "/app" = "/app/files/starter.txt" ∧
  reply_txt "/app" = "/app/files/reply.txt" ∧
  newreply_txt "/app" = "/app/files/newreply.txt".
Proof. repeat split. Qed.

(** The scenario of the specification: [starter.txt] holds [hello]. *)
Example run_hello :
  let r := run "/app" quiet hello_only in
  r.1 = Normal undefined ∧
  console r.2 = [ Log (JString (js_literal "hello"));
                  Log (JString (js_literal "hello" ++ suffix)) ] ∧
  map_to_list (fs r.2)
  = [ ("/app/files/newreply.txt", File (Utf8.encode (js_literal "hello" ++ suffix))) ] ∧
  call <$> trace r.2 = plan "/app" (js_literal "hello").
Proof. vm_compute. repeat split. Qed.

(** With a directory at [newreply.txt] the rename is refused; the
    intermediate file and the directory are what remains. *)
Example run_hello_with_directory :
  let r := run "/app" quiet hello_with_directory in
  r.1 = Normal undefined ∧
  console r.2 = [ Log (JString (js_literal "hello"));
                  Log (JError (FsError EISDIR "rename" (Some "/app/files/reply.txt")
                                 (Some "/app/files/newreply.txt"))) ] ∧
  fs r.2 !! "/app/files/reply.txt"
  = Some (File (Utf8.encode (js_literal "hello" ++ suffix))) ∧
  fs r.2 !! "/app/files/newreply.txt" = Some (Dir true) ∧
  fs r.2 !! "/app/files/starter.txt" = None ∧
  length (trace r.2) = 5%nat.
Proof. vm_compute. repeat split. Qed.

(** A stale [newreply.txt] survives a run whose [reply.txt] is removed by
    somebody else just before the rename. *)
Example run_hello_raced :
  let r := run "/app" (remover 4 (reply_txt "/app")) hello_with_old_output in
  console r.2 = [ Log (JString (js_literal "hello"));
                  Log (JError (FsError ENOENT "rename" (Some "/app/files/reply.txt")
                                 (Some "/app/files/newreply.txt"))) ] ∧
  fs r.2 !! "/app/files/newreply.txt" = Some (File (Utf8.encode (js_literal "old"))) ∧
  fs r.2 !! "/app/files/reply.txt" = None.
Proof. vm_compute. repeat split. Qed.

(** On an empty directory the process still ends with status 0. *)
Example script_on_empty_directory :
  status (script "/app" quiet ∅) = 0 ∧
  console (at_exit (script "/app" quiet ∅))
  = [ Log (JError (FsError ENOENT "open" (Some "/app/files/starter.txt") None)) ].
Proof. vm_compute. repeat split. Qed.

(** * Properties of the routes *)

Lemma m_lit t :
  ∀ pos s k,
    Server.m (Server.lit t) pos s k = true ↔
    ∃ s', s = t +:+ s' ∧ k (pos + String.length t)%nat s' = true.
Proof.
  induction t as [|c t IH]; intros pos s k; cbn [Server.lit Server.m String.length].
  - rewrite Nat.add_0_r. split.
    + intros H. exists s. split; [reflexivity|exact H].
    + intros (s' & -> & H). exact H.
  - destruct s as [|x s].
    + split; [discriminate|]. intros (s' & Hs & _). discriminate Hs.
    + destruct (Ascii.eqb_spec x c) as [->|Hne].
      * rewrite IH. replace (pos + S (String.length t))%nat
          with (S pos + String.length t)%nat by lia.
        split.
        -- intros (s' & -> & H). exists s'. split; [reflexivity|exact H].
        -- intros (s' & Hs & H). injection Hs as ->. exists s'. split; [reflexivity|exact H].
      * split; [discriminate|]. intros (s' & Hs & _). injection Hs as Hx _. contradiction.
Qed.

(** Where the expression of the first route matches. *)
Lemma m_index_re pos s :
  Server.m Server.index_re pos s (λ _ _, true) = true ↔
  (pos = 0%nat ∧ s = "/") ∨ ∃ b, s = "/index" +:+ b.
Proof.
  unfold Server.index_re. cbn [Server.m]. rewrite orb_true_iff.
  assert (Hroot :
    match pos with
    | O => Server.m (Server.lit "/") pos s
             (λ pos' s', match s' with EmptyString => true | String _ _ => false end)
    | S _ => false
    end = true ↔ pos = 0%nat ∧ s = "/").
  { destruct pos as [|pos].
    - rewrite (m_lit "/"). split.
      + intros (s' & -> & H). destruct s'; [auto|discriminate H].
      + intros [_ ->]. exists "". split; reflexivity.
    - split; [discriminate|]. intros [H _]. discriminate H. }
  assert (Hindex :
    Server.m (Server.lit "/index") pos s
      (λ pos' s', Server.m (Server.Seq Server.Dot (Server.lit "html")) pos' s' (λ _ _, true)
                  || true) = true ↔ ∃ b, s = "/index" +:+ b).
  { rewrite (m_lit "/index"). split.
    - intros (s' & -> & _). exists s'. reflexivity.
    - intros (b & ->). exists b. split; [reflexivity|]. apply orb_true_r. }
  cbn [Server.m] in Hindex. tauto.
Qed.

Lemma search_spec r s :
  ∀ pos,
    Server.search r pos s = true ↔
    ∃ a b, s = a +:+ b ∧ Server.m r (pos + String.length a)%nat b (λ _ _, true) = true.
Proof.
  induction s as [|c s IH]; intros pos; cbn [Server.search]; rewrite orb_true_iff.
  - split.
    + intros [H|H]; [|discriminate H]. exists "", "". rewrite Nat.add_0_r. auto.
    + intros (a & b & Hs & H). left.
      destruct a; [|discriminate Hs]. destruct b; [|discriminate Hs].
      cbn [String.length] in H. rewrite Nat.add_0_r in H. exact H.
  - rewrite IH. split.
    + intros [H|(a & b & -> & H)].
      * exists "", (String c s). rewrite Nat.add_0_r. auto.
      * exists (String c a), b. split; [reflexivity|].
        cbn [String.length]. replace (pos + S (String.length a))%nat
          with (S pos + String.length a)%nat by lia. exact H.
    + intros (a & b & Hs & H). destruct a as [|x a].
      * left. change (String c s = b) in Hs. subst b.
        cbn [String.length] in H. rewrite Nat.add_0_r in H. exact H.
      * right. change (String c s = String x (a +:+ b)) in Hs.
        injection Hs as -> ->. exists a, b. split; [reflexivity|].
        cbn [String.length] in H. replace (pos + S (String.length a))%nat
          with (S pos + String.length a)%nat in H by lia. exact H.
Qed.

(** The first route's expression accepts the path [/] and every path in
    which [/index] occurs, and nothing else. *)
Lemma test_index_re p :
  Server.test Server.index_re p = true ↔ p = "/" ∨ contains "/index" p.
Proof.
  unfold Server.test. rewrite search_spec. split.
  - intros (a & b & -> & H). apply m_index_re in H as [[Ha ->]|(b' & ->)].
    + left. destruct a; [reflexivity|discriminate Ha].
    + right. exists a, b'. reflexivity.
  - intros [->|(a & b & ->)].
    + exists "", "/". split; [reflexivity|]. apply m_index_re. left. auto.
    + exists a, ("/index" +:+ b). split; [reflexivity|]. apply m_index_re. right. eauto.
Qed.



Lemma lowercase_app a b :
  Server.lowercase (a +:+ b) = Server.lowercase a +:+ Server.lowercase b.
Proof.
  induction a as [|c a IH]; [reflexivity|].
  change (String (Server.lower c) (Server.lowercase (a +:+ b))
          = String (Server.lower c) (Server.lowercase a +:+ Server.lowercase b)).
  rewrite IH. reflexivity.
Qed.

(** Lowering the letters of a path keeps it within the first route. *)
Lemma test_index_re_lowercase p :
  Server.test Server.index_re p = true →
  Server.test Server.index_re (Server.lowercase p) = true.
Proof.
  rewrite !test_index_re. intros [->|(a & b & ->)].
  - left. reflexivity.
  - right. exists (Server.lowercase a), (Server.lowercase b).
    rewrite !lowercase_app. reflexivity.
Qed.





(** When the application answers with a redirect. *)
Lemma dispatch_redirect d meth p c loc :
  Server.dispatch (Server.app d) (Server.Request meth p) = Some (Server.Redirect c loc)
  ↔ (meth = Server.GET ∨ meth = Server.HEAD) ∧
    (Server.lowercase p = "/old-page.html" ∨ Server.lowercase p = "/old-page.html/") ∧
    c = 301 ∧ loc = "/new-page.html".
Proof.
  assert (Hmiss : ∀ q, Server.lowercase p = q →
            Server.test Server.index_re q = false →
            Server.test Server.index_re p = false).
  { intros q <- Hq. destruct (Server.test Server.index_re p) eqn:Ht; [|reflexivity].
    apply test_index_re_lowercase in Ht. congruence. }
  unfold Server.app. cbn [Server.dispatch Server.layer_matches Server.layer_handler
                            Server.req_method Server.req_path Server.pattern_matches].
  change (Server.lowercase "/new-page.html") with "/new-page.html".
  change (Server.lowercase "/old-page.html") with "/old-page.html".
  change ("/new-page.html" +:+ "/") with "/new-page.html/".
  change ("/old-page.html" +:+ "/") with "/old-page.html/".
  split.
  - assert (Hgo :
      (if Server.test Server.index_re p
       then Some (Server.SendFile 200 (Server.index_html d))
       else if bool_decide (Server.lowercase p = "/new-page.html")
               || bool_decide (Server.lowercase p = "/new-page.html/")
            then Some (Server.SendFile 200 (Server.new_page_html d))
            else if bool_decide (Server.lowercase p = "/old-page.html")
                    || bool_decide (Server.lowercase p = "/old-page.html/")
                 then Some (Server.Redirect 301 "/new-page.html")
                 else Some (Server.SendFile 404 (Server.not_found_html d)))
      = Some (Server.Redirect c loc) →
      (Server.lowercase p = "/old-page.html" ∨ Server.lowercase p = "/old-page.html/") ∧
      c = 301 ∧ loc = "/new-page.html").
    { destruct (Server.test Server.index_re p); [discriminate|].
      destruct (_ || _); [discriminate|].
      destruct (_ || _) eqn:Hold; [|discriminate].
      intros Heq. simplify_eq. split; [|auto].
      apply orb_true_iff in Hold as [H|H]; apply bool_decide_eq_true in H; auto. }
    destruct meth; try discriminate; intros Heq; (split; [auto|exact (Hgo Heq)]).
  - intros (Hm & Hp & -> & ->).
    assert (Ht : Server.test Server.index_re p = false).
    { destruct Hp as [Hp|Hp]; apply (Hmiss _ Hp); vm_compute; reflexivity. }
    assert (Hnew : bool_decide (Server.lowercase p = "/new-page.html")
                   || bool_decide (Server.lowercase p = "/new-page.html/") = false).
    { destruct Hp as [Hp|Hp]; rewrite Hp; vm_compute; reflexivity. }
    assert (Hold : bool_decide (Server.lowercase p = "/old-page.html")
                   || bool_decide (Server.lowercase p = "/old-page.html/") = true).
    { destruct Hp as [Hp|Hp]; rewrite Hp; vm_compute; reflexivity. }
    destruct Hm as [->| ->]; rewrite Ht, Hnew, Hold; reflexivity.
Qed.

(** X11: a request is answered with a redirect exactly when it is a GET or
    HEAD for [/old-page.html], in any letter case and with or without a
    trailing slash; the redirect is a 301 to [/new-page.html]. *)
Theorem old_page_redirects d meth p c loc :
  Server.dispatch (Server.app d) (Server.Request meth p) = Some (Server.Redirect c loc)
  ↔ (meth = Server.GET ∨ meth = Server.HEAD) ∧
    (Server.lowercase p = "/old-page.html" ∨ Server.lowercase p = "/old-page.html/") ∧
    c = 301 ∧ loc = "/new-page.html".
Proof. apply dispatch_redirect. Qed.

(** X12: every redirect the application issues leads to a page it serves:
    a GET for the announced location is answered with
    [views/new-page.html] and status 200, not with another redirect. *)
Theorem redirect_lands d req c loc :
  Server.dispatch (Server.app d) req = Some (Server.Redirect c loc) →
  Server.dispatch (Server.app d) (Server.Request Server.GET loc)
    = Some (Server.SendFile 200 (Server.new_page_html d)).
Proof.
  destruct req as [meth p]. intros H.
  apply dispatch_redirect in H as (_ & _ & _ & ->). reflexivity.
Qed.

Lemma redirect_lands_witness :
  Server.dispatch (Server.app "/srv") (Server.Request Server.GET "/new-page.html")
    = Some (Server.SendFile 200 (Server.new_page_html "/srv")).
Proof.
  apply (redirect_lands "/srv" (Server.Request Server.HEAD "/Old-Page.HTML/") 301 "/new-page.html").
  vm_compute. reflexivity.
Defined.

(** * Further properties of the pipeline *)

Lemma perform_read_dir p σ e :
  σ !! p = Some (Dir e) →
  perform (ReadFile p) σ = (inl (FsError EISDIR "read" None None), σ).
Proof. intros H. cbn [perform]. unfold readFile. rewrite H. reflexivity. Qed.

Lemma perform_write_dir p data σ e :
  σ !! p = Some (Dir e) →
  perform (WriteFile p data) σ = (inl (FsError EISDIR "open" (Some p) None), σ).
Proof. intros H. cbn [perform]. unfold writeFile. rewrite H. reflexivity. Qed.

Lemma perform_rename_onto_dir p q σ b e :
  p ≠ q → σ !! p = Some (File b) → σ !! q = Some (Dir e) →
  perform (Rename p q) σ = (inl (FsError EISDIR "rename" (Some p) (Some q)), σ).
Proof.
  intros Hne Hp Hq. cbn [perform]. unfold rename. rewrite Hp, Hq.
  destruct (decide (p = q)); [contradiction|reflexivity].
Qed.

(** A run whose first read fails: one call, one logged error. *)
Lemma run_first_read_fails d env σ e σ' :
  perform (ReadFile (starter_txt d)) (env 0%nat σ) = (inl e, σ') →
  run d env σ =
    (Normal undefined,
     World σ' [Log (JError e)] 1
       [Event (ReadFile (starter_txt d)) (env 0%nat σ) σ' (inl e) 0]).
Proof. intros H. unfold_run. rewrite H. resume. reflexivity. Qed.

(** X1: the undisturbed run succeeds exactly on the directories in which
    [starter.txt] is a regular file and neither [reply.txt] nor
    [newreply.txt] is a directory. *)
Theorem quiet_success_iff d σ :
  failure (run d quiet σ).2 = None ↔
  (∃ b, σ !! starter_txt d = Some (File b)) ∧
  is_dir (σ !! reply_txt d) = false ∧
  is_dir (σ !! newreply_txt d) = false.
Proof.
  split.
  - intros Hf. destruct (quiet_success_inv d σ Hf) as (b & Hs & Hr & Hn). eauto.
  - intros ((b & Hs) & Hr & Hn). exact (proj1 (quiet_run_leaves d σ b Hs Hr Hn)).
Qed.

(** X2: write, append and rename compose into a single replacement: after
    a successful undisturbed run the directory is the initial one with
    [starter.txt] and [reply.txt] removed and [newreply.txt] set to the
    text of [starter.txt] followed by the suffix; no other entry differs. *)
Theorem success_final_directory d σ :
  failure (run d quiet σ).2 = None →
  ∃ b, σ !! starter_txt d = Some (File b) ∧
       fs (run d quiet σ).2 =
         <[newreply_txt d := File (Utf8.encode (Utf8.decode b ++ suffix))]>
           (delete (reply_txt d) (delete (starter_txt d) σ)).
Proof.
  intros Hf. destruct (quiet_success_inv d σ Hf) as (b & Hs & Hr & Hn).
  exists b. split; [exact Hs|].
  rewrite (quiet_run d σ b Hs Hr Hn). cbn [snd fs].
  rewrite encode_app by apply decode_well_formed.
  rewrite !delete_insert_eq. reflexivity.
Qed.

Lemma success_final_directory_witness :
  ∃ b, hello_with_old_output !! starter_txt "/app" = Some (File b) ∧
       fs (run "/app" quiet hello_with_old_output).2 =
         <[newreply_txt "/app" := File (Utf8.encode (Utf8.decode b ++ suffix))]>
           (delete (reply_txt "/app") (delete (starter_txt "/app") hello_with_old_output)).
Proof. apply success_final_directory. vm_compute. reflexivity. Defined.

(** X3: whatever the other processes do, a run changes no entry besides
    [starter.txt], [reply.txt] and [newreply.txt]: an entry at any other
    path that the others leave alone is the same after the run as before. *)
Theorem other_entries_untouched d env σ p :
  p ≠ starter_txt d → p ≠ reply_txt d → p ≠ newreply_txt d →
  spares env p →
  fs (run d env σ).2 !! p = σ !! p.
Proof.
  intros Hs Hr Hn Hsp. unfold_run.
  repeat next_call;
    repeat match goal with
    | H : perform _ (env _ _) = (_, ?σ') |- ?σ' !! _ = _ =>
        rewrite (turn_frame _ _ _ _ _ _ p H Hsp) by untouched; clear H
    end;
    reflexivity.
Qed.

Lemma other_entries_untouched_witness :
  fs (run "/app" (remover 4 (reply_txt "/app"))
        (<["/app/files/notes.txt" := File [1; 2; 3]]> hello_only)).2
    !! "/app/files/notes.txt"
  = Some (File [1; 2; 3]).
Proof.
  rewrite (other_entries_untouched "/app" (remover 4 (reply_txt "/app"))
             (<["/app/files/notes.txt" := File [1; 2; 3]]> hello_only)
             "/app/files/notes.txt"); try discriminate.
  - vm_compute. reflexivity.
  - apply remover_spares. discriminate.
Defined.

(** X4: when [starter.txt] is a regular file and [reply.txt] is a
    directory, the undisturbed run stops at the write with EISDIR after
    having unlinked [starter.txt]: the directory is the initial one without
    [starter.txt], so the text survives only on the console. *)
Theorem blocked_write_loses_starter d σ b e :
  σ !! starter_txt d = Some (File b) →
  σ !! reply_txt d = Some (Dir e) →
  failure (run d quiet σ).2
    = Some (WriteFile (reply_txt d) (Utf8.decode b),
            FsError EISDIR "open" (Some (reply_txt d)) None) ∧
  fs (run d quiet σ).2 = delete (starter_txt d) σ ∧
  console (run d quiet σ).2
    = [ Log (JString (Utf8.decode b));
        Log (JError (FsError EISDIR "open" (Some (reply_txt d)) None)) ].
Proof.
  intros Hs Hr. unfold_run. unfold quiet.
  rewrite (perform_read_file _ _ _ Hs). resume.
  rewrite (perform_unlink_file _ _ _ Hs). resume.
  rewrite (perform_write_dir (reply_txt d) _ (delete (starter_txt d) σ) e); resume.
  - repeat split.
  - rewrite lookup_delete_ne by auto with paths. exact Hr.
Qed.

Lemma blocked_write_loses_starter_witness :
  fs (run "/app" quiet (<[reply_txt "/app" := Dir true]> hello_only)).2
  = delete (starter_txt "/app") (<[reply_txt "/app" := Dir true]> hello_only).
Proof.
  apply (blocked_write_loses_starter "/app" (<[reply_txt "/app" := Dir true]> hello_only)
           (Utf8.encode (js_literal "hello")) true);
    vm_compute; reflexivity.
Defined.

(** X5: when the rename is refused because [newreply.txt] is a directory,
    the undisturbed run leaves the complete output in [reply.txt]: the
    directory is the initial one without [starter.txt] and with
    [reply.txt] holding the text followed by the suffix. *)
Theorem blocked_rename_keeps_reply d σ b e :
  σ !! starter_txt d = Some (File b) →
  is_dir (σ !! reply_txt d) = false →
  σ !! newreply_txt d = Some (Dir e) →
  failure (run d quiet σ).2
    = Some (Rename (reply_txt d) (newreply_txt d),
            FsError EISDIR "rename" (Some (reply_txt d)) (Some (newreply_txt d))) ∧
  fs (run d quiet σ).2
    = <[reply_txt d := File (Utf8.encode (Utf8.decode b ++ suffix))]>
        (delete (starter_txt d) σ).
Proof.
  intros Hs Hr Hn. unfold_run. unfold quiet.
  rewrite (perform_read_file _ _ _ Hs). resume.
  rewrite (perform_unlink_file _ _ _ Hs). resume.
  rewrite perform_write; resume.
  2:{ rewrite lookup_delete_ne by auto with paths. exact Hr. }
  rewrite (perform_append_file (reply_txt d) suffix _ (Utf8.encode (Utf8.decode b)));
    resume.
  2:{ apply lookup_insert_eq. }
  rewrite (perform_rename_onto_dir (reply_txt d) (newreply_txt d) _
             (Utf8.encode (Utf8.decode b) ++ Utf8.encode suffix) e); resume.
  - rewrite insert_insert_eq, encode_app by apply decode_well_formed. split; reflexivity.
  - auto with paths.
  - apply lookup_insert_eq.
  - rewrite !lookup_insert_ne, lookup_delete_ne by (try symmetry; auto with paths).
    exact Hn.
Qed.

Lemma blocked_rename_keeps_reply_witness :
  fs (run "/app" quiet hello_with_directory).2
  = <[reply_txt "/app" :=
        File (Utf8.encode (Utf8.decode (Utf8.encode (js_literal "hello")) ++ suffix))]>
      (delete (starter_txt "/app") hello_with_directory).
Proof.
  apply (blocked_rename_keeps_reply "/app" hello_with_directory
           (Utf8.encode (js_literal "hello")) true);
    vm_compute; reflexivity.
Defined.

(** X6: no undisturbed run ends with a regular file at [starter.txt]: a
    file found there is unlinked and never written again, and nothing is
    created there otherwise. *)
Theorem starter_never_remains d σ b :
  fs (run d quiet σ).2 !! starter_txt d ≠ Some (File b).
Proof.
  destruct (σ !! starter_txt d) as [[b'|e]|] eqn:Hs.
  - rewrite (starter_consumed d σ b' Hs). discriminate.
  - rewrite (run_first_read_fails d quiet σ _ _ (perform_read_dir _ _ _ Hs)).
    cbn [snd fs]. rewrite Hs. discriminate.
  - rewrite (run_without_starter d quiet σ Hs). cbn [snd fs]. unfold quiet.
    rewrite Hs. discriminate.
Qed.



(** X8: a run that fails at its first read or at the unlink has changed
    nothing, whatever the other processes did: every call it made left
    the directory as it found it. *)
Theorem early_failure_changes_nothing d env σ c e :
  failure (run d env σ).2 = Some (c, e) →
  c = ReadFile (starter_txt d) ∨ c = Unlink (starter_txt d) →
  Forall (λ ev, after ev = before ev) (trace (run d env σ).2).
Proof.
  unfold_run. repeat next_call; unfold failure; cbn [app last trace settled call];
    intros Hf Hc; simplify_eq.
  - apply perform_failed in Hcall as ->. repeat constructor.
  - apply perform_read_inv in Hcall as (_ & _ & _ & ->).
    apply perform_failed in Hcall0 as ->. repeat constructor.
  - destruct Hc as [Hc|Hc]; simplify_eq.
  - destruct Hc as [Hc|Hc]; simplify_eq.
  - destruct Hc as [Hc|Hc]; simplify_eq.
  - destruct Hc as [Hc|Hc]; simplify_eq.
    exfalso. apply (starter_newreply d). congruence.
Qed.

Lemma early_failure_changes_nothing_witness :
  Forall (λ ev, after ev = before ev)
    (trace (run "/app" (remover 1 (starter_txt "/app")) hello_only).2).
Proof.
  apply (early_failure_changes_nothing "/app" (remover 1 (starter_txt "/app")) hello_only
           (Unlink (starter_txt "/app"))
           (FsError ENOENT "unlink" (Some (starter_txt "/app")) None)).
  - vm_compute. reflexivity.
  - right. reflexivity.
Defined.
